(** * Cross-Origin-Opener-Policy interceptor (package [coop])

    A shallow embedding of [safehttp/plugins/coop/coop.go] and the
    properties of its policy serialisation, interceptor construction,
    override dispatch and lifecycle callbacks.

    Go strings are byte sequences: they are modelled by [string] (a list
    of [ascii]), Go's [+] on strings by [append].  Slices of strings are
    lists; a nil slice and an empty slice are both [[]].

    The source tree carries two revisions of [coop.go]; they differ in the
    name of the report-only field ([ro], later [rep]) and in [OnError],
    which only the later revision has.  The later revision is modelled. *)

From Stdlib Require Import String Ascii List Bool Arith Lia.
From Equations Require Import Equations.
Import ListNotations.

Local Open Scope string_scope.
Local Open Scope list_scope.

(** ** Strings *)

(** The double-quote byte (decimal 34) and the one-byte string holding it. *)
Definition dquote_char : ascii := "034"%char.
Definition dquote : string := String dquote_char EmptyString.

(** The Go raw literal opening the report-to parameter: a semicolon, a
    space, the word report-to, a space and an opening double quote. *)
Definition report_to_open : string := ("; report-to " ++ dquote)%string.

(** ** Data model *)

(** [type Mode string] *)
Definition Mode : Type := string.

Definition SameOrigin : Mode := "same-origin".
Definition SameOriginAllowPopups : Mode := "same-origin-allow-popups".
Definition UnsafeNone : Mode := "unsafe-none".

(** [type Policy struct { Mode Mode; ReportingGroup string; ReportOnly bool }] *)
Record Policy : Type := mkPolicy {
  Policy_Mode : Mode;
  ReportingGroup : string;
  ReportOnly : bool
}.

(** [type Interceptor struct { rep []string; enf []string }] *)
Record Interceptor : Type := mkInterceptor {
  rep : list string;
  enf : list string
}.

(** [type Overrider Interceptor]: a distinct named type with the same
    representation; values move between the two by explicit conversion. *)
Inductive Overrider : Type :=
| MkOverrider (it : Interceptor).

(** The conversion [Overrider(x)]. *)
Definition Overrider_of_Interceptor (it : Interceptor) : Overrider :=
  MkOverrider it.

(** The conversion [Interceptor(x)]. *)
Definition Interceptor_of_Overrider (o : Overrider) : Interceptor :=
  match o with MkOverrider it => it end.

(** ** Policy serialisation *)

(** [func (p Policy) String() string] *)
Definition Policy_String (p : Policy) : string :=
  if (ReportingGroup p =? EmptyString)%string
  then Policy_Mode p
  else (((Policy_Mode p ++ report_to_open) ++ ReportingGroup p) ++ dquote)%string.

(** ** Interceptor construction *)

(** The [for _, p := range policies] loop of [NewInterceptor], with the two
    accumulators [rep] and [enf] it appends to. *)
Fixpoint NewInterceptor_loop (policies : list Policy) (rep enf : list string)
  : Interceptor :=
  match policies with
  | [] => {| rep := rep; enf := enf |}
  | p :: rest =>
      if ReportOnly p
      then NewInterceptor_loop rest (rep ++ [Policy_String p]) enf
      else NewInterceptor_loop rest rep (enf ++ [Policy_String p])
  end.

(** [func NewInterceptor(policies ...Policy) Interceptor] *)
Definition NewInterceptor (policies : list Policy) : Interceptor :=
  NewInterceptor_loop policies [] [].

(** [func Default(reportGroup string) Interceptor]; the [ReportOnly] field
    is left at its zero value. *)
Definition Default (reportGroup : string) : Interceptor :=
  NewInterceptor
    [ {| Policy_Mode := SameOrigin; ReportingGroup := reportGroup;
         ReportOnly := false |} ].

(** [func Override(policies ...Policy) Overrider] *)
Definition Override (policies : list Policy) : Overrider :=
  Overrider_of_Interceptor (NewInterceptor policies).

(** ** Interface values

    A Go interface value is either nil or a value tagged with its dynamic
    type.  Only the dynamic types this package tests for are told apart;
    every other dynamic type (another plugin's interceptor or config, a
    pointer to one of this package's types, ...) is recorded by its name. *)

(** Values of the interface [safehttp.Interceptor]. *)
Inductive SafehttpInterceptor : Type :=
| NilInterceptor
| CoopInterceptor (it : Interceptor)
| OtherInterceptor (dynamic_type : string).

(** Values of the interface [safehttp.InterceptorConfig]. *)
Inductive InterceptorConfig : Type :=
| NilConfig
| OverriderConfig (o : Overrider)
| OtherConfig (dynamic_type : string).

(** The result of a call: a normal return, or a run-time panic. *)
Inductive outcome (A : Type) : Type :=
| Returned (a : A)
| Panicked.
Arguments Returned {A} a.
Arguments Panicked {A}.

(** The two-result assertion [v, ok := i.(Interceptor)]; on failure [v] is
    the zero value of [Interceptor]. *)
Definition assert_Interceptor (i : SafehttpInterceptor) : Interceptor * bool :=
  match i with
  | CoopInterceptor it => (it, true)
  | _ => ({| rep := []; enf := [] |}, false)
  end.

(** The one-result assertion [cfg.(Overrider)]: it panics unless the dynamic
    type of [cfg] is [Overrider]. *)
Definition assert_Overrider (cfg : InterceptorConfig) : outcome Overrider :=
  match cfg with
  | OverriderConfig o => Returned o
  | _ => Panicked
  end.

(** [func (p Overrider) Match(i safehttp.Interceptor) bool] *)
Definition Match (p : Overrider) (i : SafehttpInterceptor) : bool :=
  let '(_, ok) := assert_Interceptor i in ok.

(** Modelled from the spec: [safehttp.Result] is declared outside this
    package; section 6 describes it as the written / not written signal the
    pipeline reads. *)
Inductive Result : Type :=
| ResultWritten
| ResultNotWritten.

(** [safehttp.NotWritten()] *)
Definition NotWritten : Result := ResultNotWritten.

(** The nesting depth of override dispatch left for a configuration object:
    the recursive call of [Before] always passes nil. *)
Definition config_rank (cfg : InterceptorConfig) : nat :=
  match cfg with
  | NilConfig => 0
  | _ => 1
  end.

Definition COOP_header : string := "Cross-Origin-Opener-Policy".
Definition COOP_report_only_header : string :=
  "Cross-Origin-Opener-Policy-Report-Only".

(** ** Lifecycle callbacks

    The response writer, its header collection, the request and the handler
    response belong to package [safehttp].  The callbacks are written over
    any header collection [Header] with its claim operation, in state
    passing style: [w] is a pointer in Go, so each callback returns the
    response writer it leaves behind. *)
Section Callbacks.

Context {Header Body IncomingRequest Response : Type}.

(** Modelled from the spec: [Header.Claim] is declared outside this
    package; section 6 gives it as claim(headerName) -> setter(sequence of
    string), and section 7 has it never fail on a well-formed response.
    Claiming yields the updated collection and the setter. *)
Variable Claim : string -> Header -> Header * (list string -> Header -> Header).

(** [*safehttp.ResponseWriter]: the header collection and everything else
    the writer holds (status, body, whether it has been written). *)
Record ResponseWriter : Type := mkResponseWriter {
  rwHeader : Header;
  rwBody : Body
}.

(** The statement [w.Header().Claim(name)(values)]. *)
Definition claim_and_set (name : string) (values : list string)
           (w : ResponseWriter) : ResponseWriter :=
  let '(h, set) := Claim name (rwHeader w) in
  {| rwHeader := set values h; rwBody := rwBody w |}.

(** [func (it Interceptor) Before(w, r, cfg) safehttp.Result] *)
Equations Before (it : Interceptor) (w : ResponseWriter) (r : IncomingRequest)
          (cfg : InterceptorConfig) : outcome Result * ResponseWriter
  by wf (config_rank cfg) lt :=
  Before it w r NilConfig :=
    let w1 := claim_and_set COOP_header (enf it) w in
    let w2 := claim_and_set COOP_report_only_header (rep it) w1 in
    (Returned NotWritten, w2);
  Before it w r cfg with assert_Overrider cfg := {
    | Returned o := Before (Interceptor_of_Overrider o) w r NilConfig;
    | Panicked := (Panicked, w) }.

(** [func (it Interceptor) Commit(w, r, resp, _) safehttp.Result] *)
Definition Commit (it : Interceptor) (w : ResponseWriter) (r : IncomingRequest)
           (resp : Response) (cfg : InterceptorConfig)
  : outcome Result * ResponseWriter :=
  (Returned NotWritten, w).

(** [func (it Interceptor) OnError(w, r, resp, _) safehttp.Result] *)
Definition OnError (it : Interceptor) (w : ResponseWriter) (r : IncomingRequest)
           (resp : Response) (cfg : InterceptorConfig)
  : outcome Result * ResponseWriter :=
  (Returned NotWritten, w).

End Callbacks.

(** ** A recording header collection

    The calls a callback makes on the header collection, in order.  Running
    a callback over this collection yields the exact sequence of claim and
    set operations it performs on the response. *)
Inductive HeaderCall : Type :=
| Claimed (name : string)
| SetTo (name : string) (values : list string).

Definition CallLog : Type := list HeaderCall.

Definition recordClaim (name : string) (h : CallLog)
  : CallLog * (list string -> CallLog -> CallLog) :=
  (h ++ [Claimed name], fun values h' => h' ++ [SetTo name values]).

(** ** Directive grammar and its parser *)

(** The three declared [Mode] constants. *)
Definition Modes : list Mode := [SameOrigin; SameOriginAllowPopups; UnsafeNone].

Definition ValidMode (m : Mode) : Prop := In m Modes.

Definition isValidMode (m : Mode) : bool :=
  existsb (String.eqb m) Modes.

(** The directive grammar of the wire contract: a mode token, optionally
    followed by the report-to parameter with a quoted group name. *)
Definition Directive (s : string) : Prop :=
  exists m : Mode, ValidMode m /\
    (s = m \/
     exists g : string, s = (m ++ report_to_open ++ g ++ dquote)%string).

(** [strip_prefix p s] is the rest of [s] after its prefix [p], if [s]
    starts with [p]. *)
Fixpoint strip_prefix (p s : string) : option string :=
  match p with
  | EmptyString => Some s
  | String c p' =>
      match s with
      | EmptyString => None
      | String d s' => if Ascii.eqb c d then strip_prefix p' s' else None
      end
  end.

(** [strip_last s] splits the last byte off a non-empty string. *)
Fixpoint strip_last (s : string) : option (string * ascii) :=
  match s with
  | EmptyString => None
  | String c s' =>
      match strip_last s' with
      | None => Some (EmptyString, c)
      | Some (t, d) => Some (String c t, d)
      end
  end.

(** What follows the mode token: nothing (no group), or the report-to
    parameter, whose group is everything between the opening quote and the
    closing quote that ends the string. *)
Definition parse_group (rest : string) : option string :=
  if (rest =? EmptyString)%string then Some EmptyString
  else
    match strip_prefix report_to_open rest with
    | None => None
    | Some t =>
        match strip_last t with
        | Some (g, c) => if Ascii.eqb c dquote_char then Some g else None
        | None => None
        end
    end.

Definition parse_with_mode (m : Mode) (s : string) : option (Mode * string) :=
  match strip_prefix m s with
  | None => None
  | Some rest =>
      match parse_group rest with
      | None => None
      | Some g => Some (m, g)
      end
  end.

Fixpoint parse_directive_in (modes : list Mode) (s : string)
  : option (Mode * string) :=
  match modes with
  | [] => None
  | m :: ms =>
      match parse_with_mode m s with
      | Some r => Some r
      | None => parse_directive_in ms s
      end
  end.

(** The inverse of [Policy_String] on the declared modes: mode and group of
    a directive. *)
Definition parse_directive (s : string) : option (Mode * string) :=
  parse_directive_in Modes s.

(** Decision procedure for the directive grammar. *)
Definition isDirective (s : string) : bool :=
  match parse_directive s with
  | Some _ => true
  | None => false
  end.

(** The inverse parser: the directive and the sequence it was found in
    ([true] for the report-only sequence) give back the policy. *)
Definition parsePolicy (reportOnly : bool) (s : string) : option Policy :=
  match parse_directive s with
  | Some (m, g) =>
      Some {| Policy_Mode := m; ReportingGroup := g; ReportOnly := reportOnly |}
  | None => None
  end.

Definition enforcing (p : Policy) : bool := negb (ReportOnly p).

(** [parse] recovers every input policy of [policies] from the two sequences
    [NewInterceptor] builds, in input order. *)
Definition RoundTrips (parse : bool -> string -> option Policy)
           (policies : list Policy) : Prop :=
  map (parse false) (enf (NewInterceptor policies))
    = map Some (filter enforcing policies)
  /\ map (parse true) (rep (NewInterceptor policies))
    = map Some (filter ReportOnly policies).

(** [interleave flags rs es] rebuilds one sequence from the two: position by
    position it takes the next element of [rs] where the flag is set and the
    next element of [es] where it is not. *)
Fixpoint interleave {A : Type} (flags : list bool) (rs es : list A) : list A :=
  match flags with
  | [] => []
  | true :: fs =>
      match rs with
      | [] => []
      | x :: rs' => x :: interleave fs rs' es
      end
  | false :: fs =>
      match es with
      | [] => []
      | x :: es' => x :: interleave fs rs es'
      end
  end.

(** * Properties *)

(** ** Strings *)

Lemma append_assoc (a b c : string) :
  ((a ++ b) ++ c = a ++ (b ++ c))%string.
Proof.
  induction a as [|x a IH]; simpl; [reflexivity|].
  now rewrite IH.
Qed.

Lemma append_empty_r (a : string) : (a ++ EmptyString)%string = a.
Proof.
  induction a as [|x a IH]; simpl; [reflexivity|].
  now rewrite IH.
Qed.

Lemma length_append (a b : string) :
  String.length (a ++ b) = String.length a + String.length b.
Proof.
  induction a as [|x a IH]; simpl; [reflexivity|].
  now rewrite IH.
Qed.

Lemma substring_whole_prefix (g b : string) :
  substring 0 (String.length g) (g ++ b) = g.
Proof.
  induction g as [|x g IH]; simpl.
  - now destruct b.
  - now rewrite IH.
Qed.



Lemma isValidMode_spec (m : Mode) :
  isValidMode m = true <-> ValidMode m.
Proof.
  unfold isValidMode, ValidMode. rewrite existsb_exists. split.
  - intros [x [Hx E]]. apply String.eqb_eq in E. now subst x.
  - intros H. exists m. split; [exact H|apply String.eqb_refl].
Qed.

(** ** Policy serialisation *)

Lemma Policy_String_no_group (m : Mode) (ro : bool) :
  Policy_String {| Policy_Mode := m; ReportingGroup := EmptyString;
                   ReportOnly := ro |} = m.
Proof. reflexivity. Qed.

Lemma Policy_String_group (p : Policy) :
  ReportingGroup p <> EmptyString ->
  Policy_String p
  = (Policy_Mode p ++ report_to_open ++ ReportingGroup p ++ dquote)%string.
Proof.
  intros Hg. unfold Policy_String.
  destruct (String.eqb_spec (ReportingGroup p) EmptyString) as [E|_].
  - contradiction.
  - now rewrite !append_assoc.
Qed.


(** ** Interceptor construction *)

Lemma NewInterceptor_loop_spec (policies : list Policy) (r e : list string) :
  NewInterceptor_loop policies r e
  = {| rep := r ++ map Policy_String (filter ReportOnly policies);
       enf := e ++ map Policy_String (filter enforcing policies) |}.
Proof.
  revert r e.
  induction policies as [|p ps IH]; intros r e; simpl.
  - now rewrite !app_nil_r.
  - change (enforcing p) with (negb (ReportOnly p)).
    destruct (ReportOnly p); simpl; rewrite IH.
    + now rewrite <- app_assoc.
    + now rewrite <- app_assoc.
Qed.

Lemma enf_NewInterceptor (policies : list Policy) :
  enf (NewInterceptor policies) = map Policy_String (filter enforcing policies).
Proof. unfold NewInterceptor. now rewrite NewInterceptor_loop_spec. Qed.

Lemma rep_NewInterceptor (policies : list Policy) :
  rep (NewInterceptor policies) = map Policy_String (filter ReportOnly policies).
Proof. unfold NewInterceptor. now rewrite NewInterceptor_loop_spec. Qed.

Lemma partition_lengths (policies : list Policy) :
  length (filter enforcing policies) + length (filter ReportOnly policies)
  = length policies.
Proof.
  induction policies as [|p ps IH]; simpl; [reflexivity|].
  change (enforcing p) with (negb (ReportOnly p)).
  destruct (ReportOnly p); simpl; lia.
Qed.

Lemma interleave_partition {A : Type} (f : Policy -> A) (policies : list Policy) :
  interleave (map ReportOnly policies)
             (map f (filter ReportOnly policies))
             (map f (filter enforcing policies))
  = map f policies.
Proof.
  induction policies as [|p ps IH]; simpl; [reflexivity|].
  change (enforcing p) with (negb (ReportOnly p)).
  destruct (ReportOnly p); simpl; now rewrite IH.
Qed.

(** C3: [NewInterceptor] partitions its input exactly.  The enforced
    sequence is the serialisation of the policies whose [ReportOnly] flag is
    false and the report-only sequence that of the policies whose flag is
    true, each in input order; the two lengths add up to the length of the
    input; interleaving the two sequences along the input flags gives back
    the serialisation of the whole input, so every policy contributed one
    string to one sequence.  [Override] builds the same two sequences. *)
Theorem NewInterceptor_partition (policies : list Policy) :
  enf (NewInterceptor policies) = map Policy_String (filter enforcing policies)
  /\ rep (NewInterceptor policies)
     = map Policy_String (filter ReportOnly policies)
  /\ length (enf (NewInterceptor policies))
     + length (rep (NewInterceptor policies)) = length policies
  /\ interleave (map ReportOnly policies)
                (rep (NewInterceptor policies)) (enf (NewInterceptor policies))
     = map Policy_String policies
  /\ Interceptor_of_Overrider (Override policies) = NewInterceptor policies.
Proof.
  rewrite enf_NewInterceptor, rep_NewInterceptor.
  repeat split.
  - rewrite !length_map. apply partition_lengths.
  - apply interleave_partition.
Qed.


(** ** Override capability match *)

(** C6: [Match] answers true exactly when the candidate's dynamic type is
    this package's [Interceptor].  The answer depends neither on the
    contents of the [Overrider] nor on those of the candidate: every
    [Overrider] matches every COOP [Interceptor], and no [Overrider] matches
    an interceptor of another type (or a nil interface). *)
Theorem Match_spec :
  (forall (p : Overrider) (i : SafehttpInterceptor),
      Match p i = true <-> exists it : Interceptor, i = CoopInterceptor it)
  /\ (forall (p p' : Overrider) (i : SafehttpInterceptor),
         Match p i = Match p' i)
  /\ (forall (p : Overrider) (it : Interceptor),
         Match p (CoopInterceptor it) = true)
  /\ (forall (p : Overrider) (dynamic_type : string),
         Match p (OtherInterceptor dynamic_type) = false)
  /\ (forall p : Overrider, Match p NilInterceptor = false).
Proof.
  repeat split; try reflexivity.
  - destruct i as [|it|t]; simpl; intros H; try discriminate.
    now exists it.
  - intros [it ->]. reflexivity.
Qed.

(** ** Lifecycle callbacks *)

Section CallbackProperties.

Context {Header Body IncomingRequest Response : Type}.
Variable Claim : string -> Header -> Header * (list string -> Header -> Header).

Local Abbreviation RW := (@ResponseWriter Header Body).

(** What the two claim statements of [Before] leave behind when they run
    with the sequences of [it]. *)
Lemma Before_nil (it : Interceptor) (w : RW) (r : IncomingRequest) :
  Before Claim it w r NilConfig
  = (Returned NotWritten,
     claim_and_set Claim COOP_report_only_header (rep it)
       (claim_and_set Claim COOP_header (enf it) w)).
Proof. reflexivity. Qed.

Lemma Before_override (it : Interceptor) (w : RW) (r : IncomingRequest)
      (o : Overrider) :
  Before Claim it w r (OverriderConfig o)
  = Before Claim (Interceptor_of_Overrider o) w r NilConfig.
Proof. reflexivity. Qed.

Lemma Before_other (it : Interceptor) (w : RW) (r : IncomingRequest)
      (dynamic_type : string) :
  Before Claim it w r (OtherConfig dynamic_type) = (Panicked, w).
Proof. reflexivity. Qed.

Lemma claim_and_set_body (name : string) (values : list string) (w : RW) :
  rwBody (claim_and_set Claim name values w) = rwBody w.
Proof. unfold claim_and_set. now destruct (Claim name (rwHeader w)). Qed.

End CallbackProperties.

Lemma recordClaim_claim_and_set {Body : Type} (name : string)
      (values : list string) (log : CallLog) (body : Body) :
  claim_and_set recordClaim name values (mkResponseWriter log body)
  = mkResponseWriter (log ++ [Claimed name; SetTo name values]) body.
Proof.
  unfold claim_and_set, recordClaim. simpl.
  now rewrite <- app_assoc.
Qed.

Lemma Before_nil_calls {Body IncomingRequest : Type} (it : Interceptor)
      (log : CallLog) (body : Body) (r : IncomingRequest) :
  Before recordClaim it (mkResponseWriter log body) r NilConfig
  = (Returned NotWritten,
     mkResponseWriter
       (log ++ [Claimed "Cross-Origin-Opener-Policy"; 
                SetTo "Cross-Origin-Opener-Policy" (enf it);
                Claimed "Cross-Origin-Opener-Policy-Report-Only";
                SetTo "Cross-Origin-Opener-Policy-Report-Only" (rep it)])
       body).
Proof.
  rewrite Before_nil, !recordClaim_claim_and_set.
  now rewrite <- app_assoc.
Qed.

Section CallbackTheorems.

Context {Header Body IncomingRequest Response : Type}.
Variable Claim : string -> Header -> Header * (list string -> Header -> Header).

Local Abbreviation RW := (@ResponseWriter Header Body).

(** C1: when the configuration object is an [Overrider], [Before]
    delegates.  The call equals the call made on the override's own
    interceptor value with a nil configuration object, so no second
    override lookup takes place; the two headers are claimed with the
    override's enforced and report-only sequences; and the outcome is the
    same whatever interceptor received the call, so the receiver's own
    sequences are never emitted.  On the recording header collection the
    calls made are exactly the two claims carrying the override's
    sequences.  The override's sequences are the ones it was made with:
    for the override holding the value [it0] they are [enf it0] and
    [rep it0], and for the override built by [Override] from a policy list
    they are the serialised enforcing and report-only policies of that
    list.  With a pipeline default enforcing same-origin and an override
    enforcing unsafe-none, the value set for the enforcing header is
    unsafe-none. *)
Theorem Before_override_delegates (it : Interceptor) (w : RW)
        (r : IncomingRequest) (o : Overrider) :
  Before Claim it w r (OverriderConfig o)
  = Before Claim (Interceptor_of_Overrider o) w r NilConfig
  /\ Before Claim it w r (OverriderConfig o)
     = (Returned NotWritten,
        claim_and_set Claim COOP_report_only_header
          (rep (Interceptor_of_Overrider o))
          (claim_and_set Claim COOP_header
             (enf (Interceptor_of_Overrider o)) w))
  /\ (forall it' : Interceptor,
         Before Claim it' w r (OverriderConfig o)
         = Before Claim it w r (OverriderConfig o))
  /\ (forall (log : CallLog) (body : Body),
         Before recordClaim it (mkResponseWriter log body) r
                (OverriderConfig o)
         = (Returned NotWritten,
            mkResponseWriter
              (log ++ [Claimed "Cross-Origin-Opener-Policy";
                       SetTo "Cross-Origin-Opener-Policy"
                             (enf (Interceptor_of_Overrider o));
                       Claimed "Cross-Origin-Opener-Policy-Report-Only";
                       SetTo "Cross-Origin-Opener-Policy-Report-Only"
                             (rep (Interceptor_of_Overrider o))])
              body))
  /\ (forall it0 : Interceptor,
         Before Claim it w r (OverriderConfig (MkOverrider it0))
         = (Returned NotWritten,
            claim_and_set Claim "Cross-Origin-Opener-Policy-Report-Only"
              (rep it0)
              (claim_and_set Claim "Cross-Origin-Opener-Policy"
                 (enf it0) w)))
  /\ (forall (it0 : Interceptor) (log : CallLog) (body : Body),
         Before recordClaim it (mkResponseWriter log body) r
                (OverriderConfig (MkOverrider it0))
         = (Returned NotWritten,
            mkResponseWriter
              (log ++ [Claimed "Cross-Origin-Opener-Policy";
                       SetTo "Cross-Origin-Opener-Policy" (enf it0);
                       Claimed "Cross-Origin-Opener-Policy-Report-Only";
                       SetTo "Cross-Origin-Opener-Policy-Report-Only"
                             (rep it0)])
              body))
  /\ (forall (policies : list Policy) (log : CallLog) (body : Body),
         Before recordClaim it (mkResponseWriter log body) r
                (OverriderConfig (Override policies))
         = (Returned NotWritten,
            mkResponseWriter
              (log ++ [Claimed "Cross-Origin-Opener-Policy";
                       SetTo "Cross-Origin-Opener-Policy"
                             (map Policy_String (filter enforcing policies));
                       Claimed "Cross-Origin-Opener-Policy-Report-Only";
                       SetTo "Cross-Origin-Opener-Policy-Report-Only"
                             (map Policy_String
                                  (filter ReportOnly policies))])
              body))
  /\ (forall (log : CallLog) (body : Body),
         Before recordClaim
                (NewInterceptor [mkPolicy SameOrigin EmptyString false])
                (mkResponseWriter log body) r
                (OverriderConfig
                   (Override [mkPolicy UnsafeNone EmptyString false]))
         = (Returned NotWritten,
            mkResponseWriter
              (log ++ [Claimed "Cross-Origin-Opener-Policy";
                       SetTo "Cross-Origin-Opener-Policy"
                             ["unsafe-none"%string];
                       Claimed "Cross-Origin-Opener-Policy-Report-Only";
                       SetTo "Cross-Origin-Opener-Policy-Report-Only" []])
              body)).
Proof.
  assert (Hlog : forall (it0 : Interceptor) (log : CallLog) (body : Body),
             Before recordClaim it (mkResponseWriter log body) r
                    (OverriderConfig (MkOverrider it0))
             = (Returned NotWritten,
                mkResponseWriter
                  (log ++ [Claimed "Cross-Origin-Opener-Policy";
                           SetTo "Cross-Origin-Opener-Policy" (enf it0);
                           Claimed "Cross-Origin-Opener-Policy-Report-Only";
                           SetTo "Cross-Origin-Opener-Policy-Report-Only"
                                 (rep it0)])
                  body)).
  { intros it0 log body. rewrite Before_override.
    cbn [Interceptor_of_Overrider]. apply Before_nil_calls. }
  split; [apply Before_override|].
  split; [now rewrite Before_override, Before_nil|].
  split; [intros it'; now rewrite !Before_override|].
  split; [intros log body; rewrite Before_override; apply Before_nil_calls|].
  split.
  { intros it0. rewrite Before_override. cbn [Interceptor_of_Overrider].
    apply Before_nil. }
  split; [exact Hlog|].
  split.
  - intros policies log body. unfold Override, Overrider_of_Interceptor.
    rewrite Hlog. now rewrite enf_NewInterceptor, rep_NewInterceptor.
  - intros log body. rewrite Before_override.
    rewrite (Before_nil_calls _ log body r). reflexivity.
Qed.

(** C2 (as the code has it): a configuration object that is neither nil
    nor an [Overrider] makes [Before] panic at the type assertion, before
    any header is claimed, leaving the response as it was.  The
    interceptor's own sequences are used, and [Before] returns normally,
    when the configuration object is nil. *)
Theorem Before_non_override_config (it : Interceptor) (w : RW)
        (r : IncomingRequest) (cfg : InterceptorConfig) :
  cfg <> NilConfig ->
  (forall o : Overrider, cfg <> OverriderConfig o) ->
  Before Claim it w r cfg = (Panicked, w)
  /\ Before Claim it w r NilConfig
     = (Returned NotWritten,
        claim_and_set Claim COOP_report_only_header (rep it)
          (claim_and_set Claim COOP_header (enf it) w)).
Proof.
  intros Hnil Hover. split; [|apply Before_nil].
  destruct cfg as [|o|t].
  - contradiction.
  - now elim (Hover o).
  - apply Before_other.
Qed.

(** C8: every lifecycle callback returns the not-written result.
    [Before] does so with an absent and with a present override, and
    leaves everything of the response writer but its header collection as
    it was; [Commit] and [OnError] do so for every configuration object
    and leave the whole response writer as it was. *)
Theorem callbacks_return_NotWritten (it : Interceptor) (w : RW)
        (r : IncomingRequest) (resp : Response) :
  fst (Before Claim it w r NilConfig) = Returned NotWritten
  /\ rwBody (snd (Before Claim it w r NilConfig)) = rwBody w
  /\ (forall o : Overrider,
         fst (Before Claim it w r (OverriderConfig o)) = Returned NotWritten
         /\ rwBody (snd (Before Claim it w r (OverriderConfig o)))
            = rwBody w)
  /\ (forall cfg : InterceptorConfig,
         Commit it w r resp cfg = (Returned NotWritten, w)
         /\ OnError it w r resp cfg = (Returned NotWritten, w)).
Proof.
  split; [now rewrite Before_nil|].
  split; [rewrite Before_nil; simpl; now rewrite !claim_and_set_body|].
  split.
  - intros o. rewrite Before_override, Before_nil. simpl.
    now rewrite !claim_and_set_body.
  - intros cfg. split; reflexivity.
Qed.

(** C10: a call of [Before] with no configuration object performs exactly
    two claim statements on the response and nothing else: first the
    header named Cross-Origin-Opener-Policy is claimed and set to the
    enforced sequence, then the header named
    Cross-Origin-Opener-Policy-Report-Only is claimed and set to the
    report-only sequence.  On the recording header collection the calls
    added are these four, each once and in this order, and the rest of the
    response writer is unchanged. *)
Theorem Before_claims_two_headers (it : Interceptor) (w : RW)
        (r : IncomingRequest) :
  Before Claim it w r NilConfig
  = (Returned NotWritten,
     claim_and_set Claim "Cross-Origin-Opener-Policy-Report-Only" (rep it)
       (claim_and_set Claim "Cross-Origin-Opener-Policy" (enf it) w))
  /\ rwBody (snd (Before Claim it w r NilConfig)) = rwBody w
  /\ (forall (log : CallLog) (body : Body),
         Before recordClaim it (mkResponseWriter log body) r NilConfig
         = (Returned NotWritten,
            mkResponseWriter
              (log ++ [Claimed "Cross-Origin-Opener-Policy";
                       SetTo "Cross-Origin-Opener-Policy" (enf it);
                       Claimed "Cross-Origin-Opener-Policy-Report-Only";
                       SetTo "Cross-Origin-Opener-Policy-Report-Only"
                             (rep it)])
              body)).
Proof.
  split; [apply Before_nil|].
  split; [rewrite Before_nil; simpl; now rewrite !claim_and_set_body|].
  intros log body. apply Before_nil_calls.
Qed.

End CallbackTheorems.

(** The scenario of the override test: the pipeline default enforces
    same-origin, the handler's override enforces unsafe-none; the value
    set for the enforcing header is unsafe-none. *)
Example override_scenario :
  Before (IncomingRequest := unit) recordClaim
         (NewInterceptor [mkPolicy SameOrigin EmptyString false])
         (mkResponseWriter [] tt) tt
         (OverriderConfig (Override [mkPolicy UnsafeNone EmptyString false]))
  = (Returned NotWritten,
     mkResponseWriter
       [Claimed "Cross-Origin-Opener-Policy";
        SetTo "Cross-Origin-Opener-Policy" ["unsafe-none"%string];
        Claimed "Cross-Origin-Opener-Policy-Report-Only";
        SetTo "Cross-Origin-Opener-Policy-Report-Only" []]
       tt).
Proof. reflexivity. Qed.

(** An interceptor built from no policy claims both headers with empty
    sequences. *)
Example empty_interceptor_scenario :
  Before (IncomingRequest := unit) recordClaim (NewInterceptor [])
         (mkResponseWriter [] tt) tt NilConfig
  = (Returned NotWritten,
     mkResponseWriter
       [Claimed "Cross-Origin-Opener-Policy";
        SetTo "Cross-Origin-Opener-Policy" [];
        Claimed "Cross-Origin-Opener-Policy-Report-Only";
        SetTo "Cross-Origin-Opener-Policy-Report-Only" []]
       tt).
Proof. reflexivity. Qed.

(** C2, the claim as stated fails: a configuration object of another
    plugin is not nil and is not an [Overrider], and [Before] panics on it
    instead of returning. *)
Lemma Before_foreign_config_panics :
  OtherConfig "csp.Overrider" <> NilConfig
  /\ (forall o : Overrider, OtherConfig "csp.Overrider" <> OverriderConfig o)
  /\ Before (IncomingRequest := unit) recordClaim (Default EmptyString)
            (mkResponseWriter [] tt) tt (OtherConfig "csp.Overrider")
     = (Panicked, mkResponseWriter [] tt)
  /\ fst (Before (IncomingRequest := unit) recordClaim (Default EmptyString)
            (mkResponseWriter [] tt) tt (OtherConfig "csp.Overrider"))
     <> Returned NotWritten.
Proof.
  split; [discriminate|].
  split; [intros o; discriminate|].
  split; [reflexivity|].
  rewrite Before_other. simpl. discriminate.
Qed.

Lemma Before_non_override_config_witness :
  OtherConfig "csp.Overrider" <> NilConfig
  /\ (forall o : Overrider, OtherConfig "csp.Overrider" <> OverriderConfig o)
  /\ Before (IncomingRequest := unit) recordClaim (Default EmptyString)
            (mkResponseWriter [] tt) tt (OtherConfig "csp.Overrider")
     = (Panicked, mkResponseWriter [] tt)
  /\ Before (IncomingRequest := unit) recordClaim (Default EmptyString)
            (mkResponseWriter [] tt) tt NilConfig
     = (Returned NotWritten,
        claim_and_set recordClaim COOP_report_only_header
          (rep (Default EmptyString))
          (claim_and_set recordClaim COOP_header (enf (Default EmptyString))
             (mkResponseWriter [] tt))).
Proof.
  split; [discriminate|].
  split; [intros o; discriminate|].
  apply (Before_non_override_config recordClaim (Default EmptyString)
           (mkResponseWriter [] tt) tt (OtherConfig "csp.Overrider")).
  - discriminate.
  - intros o; discriminate.
Defined.

(** ** The directive parser *)

Lemma strip_prefix_app (p s : string) :
  strip_prefix p (p ++ s) = Some s.
Proof.
  induction p as [|c p IH]; simpl; [reflexivity|].
  now rewrite Ascii.eqb_refl.
Qed.

Lemma strip_prefix_sound (p s r : string) :
  strip_prefix p s = Some r -> s = (p ++ r)%string.
Proof.
  revert s. induction p as [|c p IH]; intros s; simpl.
  - now intros [= ->].
  - destruct s as [|d s]; [discriminate|].
    destruct (Ascii.eqb_spec c d) as [->|_]; [|discriminate].
    intros H. now rewrite (IH _ H).
Qed.

Lemma strip_last_snoc (g : string) (c : ascii) :
  strip_last (g ++ String c EmptyString) = Some (g, c).
Proof.
  induction g as [|x g IH]; simpl; [reflexivity|].
  now rewrite IH.
Qed.

Lemma strip_last_sound (s t : string) (c : ascii) :
  strip_last s = Some (t, c) -> s = (t ++ String c EmptyString)%string.
Proof.
  revert t. induction s as [|x s IH]; intros t; simpl; [discriminate|].
  destruct (strip_last s) as [[t' d]|] eqn:E.
  - intros [= <- <-]. simpl. now rewrite (IH t' eq_refl).
  - intros [= <- <-]. destruct s; [reflexivity|].
    simpl in E. now destruct (strip_last s) as [[? ?]|].
Qed.

Lemma parse_group_report (g : string) :
  parse_group (report_to_open ++ g ++ dquote) = Some g.
Proof.
  unfold parse_group.
  change ((report_to_open ++ g ++ dquote =? EmptyString)%string) with false.
  rewrite strip_prefix_app. unfold dquote. rewrite strip_last_snoc.
  now rewrite Ascii.eqb_refl.
Qed.

Lemma parse_group_sound (rest g : string) :
  parse_group rest = Some g ->
  (rest = EmptyString /\ g = EmptyString)
  \/ rest = (report_to_open ++ g ++ dquote)%string.
Proof.
  unfold parse_group.
  destruct (String.eqb_spec rest EmptyString) as [->|_].
  - intros [= <-]. now left.
  - destruct (strip_prefix report_to_open rest) as [t|] eqn:Ep; [|discriminate].
    destruct (strip_last t) as [[g' c]|] eqn:El; [|discriminate].
    destruct (Ascii.eqb_spec c dquote_char) as [->|_]; [|discriminate].
    intros [= ->]. right.
    apply strip_prefix_sound in Ep. apply strip_last_sound in El.
    now rewrite Ep, El.
Qed.

Lemma parse_with_mode_app (m : Mode) (rest g : string) :
  parse_group rest = Some g ->
  parse_with_mode m (m ++ rest) = Some (m, g).
Proof.
  intros H. unfold parse_with_mode. now rewrite strip_prefix_app, H.
Qed.

Lemma parse_directive_in_cons (m : Mode) (ms : list Mode) (s : string) :
  parse_directive_in (m :: ms) s
  = match parse_with_mode m s with
    | Some r => Some r
    | None => parse_directive_in ms s
    end.
Proof. reflexivity. Qed.

(** What follows same-origin in same-origin-allow-popups is no report-to
    parameter, and unsafe-none starts with neither of the other two. *)
Lemma parse_with_mode_SameOrigin_popups (rest : string) :
  parse_with_mode SameOrigin (SameOriginAllowPopups ++ rest) = None.
Proof. reflexivity. Qed.

Lemma parse_with_mode_SameOrigin_unsafe (rest : string) :
  parse_with_mode SameOrigin (UnsafeNone ++ rest) = None.
Proof. reflexivity. Qed.

Lemma parse_with_mode_popups_unsafe (rest : string) :
  parse_with_mode SameOriginAllowPopups (UnsafeNone ++ rest) = None.
Proof. reflexivity. Qed.

(** A directive that starts with one of the declared modes is not
    mistaken for one that starts with another. *)
Lemma parse_directive_mode (m : Mode) (rest g : string) :
  ValidMode m ->
  parse_group rest = Some g ->
  parse_directive (m ++ rest) = Some (m, g).
Proof.
  intros Hm Hg. unfold parse_directive, Modes.
  destruct Hm as [<-|[<-|[<-|[]]]].
  - rewrite parse_directive_in_cons.
    now rewrite (parse_with_mode_app _ _ _ Hg).
  - rewrite !parse_directive_in_cons, parse_with_mode_SameOrigin_popups.
    now rewrite (parse_with_mode_app _ _ _ Hg).
  - rewrite !parse_directive_in_cons, parse_with_mode_SameOrigin_unsafe,
      parse_with_mode_popups_unsafe.
    now rewrite (parse_with_mode_app _ _ _ Hg).
Qed.

Lemma parse_directive_in_sound (modes : list Mode) (s : string) (m : Mode)
      (g : string) :
  parse_directive_in modes s = Some (m, g) ->
  In m modes
  /\ ((s = m /\ g = EmptyString)
      \/ s = (m ++ report_to_open ++ g ++ dquote)%string).
Proof.
  induction modes as [|m0 ms IH]; simpl; [discriminate|].
  destruct (parse_with_mode m0 s) as [[m1 g1]|] eqn:E.
  - intros [= -> ->]. unfold parse_with_mode in E.
    destruct (strip_prefix m0 s) as [rest|] eqn:Ep; [|discriminate].
    destruct (parse_group rest) as [g'|] eqn:Eg; [|discriminate].
    injection E as <- <-.
    apply strip_prefix_sound in Ep.
    split; [now left|].
    destruct (parse_group_sound _ _ Eg) as [[-> ->] | ->].
    + left. now rewrite Ep, append_empty_r.
    + now right.
  - intros H. destruct (IH H) as [Hin Hs]. split; [now right|exact Hs].
Qed.

(** The boolean recogniser decides the directive grammar. *)
Lemma isDirective_spec (s : string) :
  isDirective s = true <-> Directive s.
Proof.
  unfold isDirective, Directive. split.
  - destruct (parse_directive s) as [[m g]|] eqn:E; [|discriminate].
    intros _. apply parse_directive_in_sound in E.
    destruct E as [Hin [[-> _]| ->]]; exists m; split; auto.
    right. now exists g.
  - intros [m [Hm [->|[g ->]]]].
    + rewrite <- (append_empty_r m).
      now rewrite (parse_directive_mode m EmptyString EmptyString Hm eq_refl).
    + now rewrite (parse_directive_mode m _ g Hm (parse_group_report g)).
Qed.

Lemma Policy_String_Directive (p : Policy) :
  ValidMode (Policy_Mode p) -> Directive (Policy_String p).
Proof.
  intros Hm. exists (Policy_Mode p). split; [exact Hm|].
  destruct (string_dec (ReportingGroup p) EmptyString) as [E|N].
  - left. unfold Policy_String. now rewrite E.
  - right. exists (ReportingGroup p). now apply Policy_String_group.
Qed.

(** The parser inverts [Policy_String] on policies with a declared mode. *)
Lemma parsePolicy_String (p : Policy) :
  ValidMode (Policy_Mode p) ->
  parsePolicy (ReportOnly p) (Policy_String p) = Some p.
Proof.
  intros Hm. destruct p as [m g ro]. simpl in *. unfold parsePolicy.
  destruct (string_dec g EmptyString) as [->|N].
  - rewrite Policy_String_no_group. rewrite <- (append_empty_r m) at 1.
    now rewrite (parse_directive_mode m EmptyString EmptyString Hm eq_refl).
  - rewrite (Policy_String_group (mkPolicy m g ro) N).
    cbn [Policy_Mode ReportingGroup].
    now rewrite (parse_directive_mode m _ g Hm (parse_group_report g)).
Qed.

(** ** Round trip and grammar of the built sequences *)

Lemma map_parse_filter (ro : bool) (policies : list Policy) :
  Forall (fun p => ValidMode (Policy_Mode p)) policies ->
  map (parsePolicy ro)
      (map Policy_String (filter (fun p => Bool.eqb (ReportOnly p) ro) policies))
  = map Some (filter (fun p => Bool.eqb (ReportOnly p) ro) policies).
Proof.
  induction 1 as [|p ps Hp _ IH]; simpl; [reflexivity|].
  destruct (Bool.eqb (ReportOnly p) ro) eqn:E; [|exact IH].
  simpl. rewrite IH. apply Bool.eqb_prop in E. subst ro.
  now rewrite (parsePolicy_String p Hp).
Qed.

Lemma filter_ReportOnly_eqb (policies : list Policy) :
  filter ReportOnly policies
  = filter (fun p => Bool.eqb (ReportOnly p) true) policies
  /\ filter enforcing policies
     = filter (fun p => Bool.eqb (ReportOnly p) false) policies.
Proof.
  split; apply filter_ext; intros p; unfold enforcing;
    now destruct (ReportOnly p).
Qed.

(** C5 (as the code has it): for every list of policies whose modes are
    among the three declared constants, the strings built by
    [NewInterceptor] round-trip through the parser [parsePolicy]: parsing
    the enforced sequence with the flag false gives back the enforcing input
    policies, and parsing the report-only sequence with the flag true gives
    back the report-only input policies, each in input order, with mode,
    group and flag. *)
Theorem NewInterceptor_round_trips (policies : list Policy) :
  Forall (fun p => ValidMode (Policy_Mode p)) policies ->
  RoundTrips parsePolicy policies.
Proof.
  intros H. unfold RoundTrips.
  rewrite enf_NewInterceptor, rep_NewInterceptor.
  destruct (filter_ReportOnly_eqb policies) as [-> ->].
  split; now apply map_parse_filter.
Qed.

Lemma NewInterceptor_round_trips_witness :
  Forall (fun p => ValidMode (Policy_Mode p))
         [mkPolicy SameOrigin "grp1" false;
          mkPolicy SameOriginAllowPopups EmptyString true;
          mkPolicy UnsafeNone "g" true]
  /\ RoundTrips parsePolicy
       [mkPolicy SameOrigin "grp1" false;
        mkPolicy SameOriginAllowPopups EmptyString true;
        mkPolicy UnsafeNone "g" true].
Proof.
  assert (H : Forall (fun p => ValidMode (Policy_Mode p))
                [mkPolicy SameOrigin "grp1" false;
                 mkPolicy SameOriginAllowPopups EmptyString true;
                 mkPolicy UnsafeNone "g" true]).
  { repeat constructor; simpl; tauto. }
  split; [exact H|].
  exact (NewInterceptor_round_trips _ H).
Defined.

(** C5, the claim as stated fails: [Mode] is any string, and a mode that
    itself ends in a report-to parameter serialises to the same string as
    the shorter mode with that group.  The two policies below differ, land
    in the same sequence as the same string, and so no parser recovers both. *)
Lemma round_trip_fails_on_open_modes :
  mkPolicy UnsafeNone "g" false
  <> mkPolicy (UnsafeNone ++ report_to_open ++ "g" ++ dquote)%string EmptyString false
  /\ enf (NewInterceptor
            [mkPolicy UnsafeNone "g" false;
             mkPolicy (UnsafeNone ++ report_to_open ++ "g" ++ dquote)%string
                      EmptyString false])
     = [(UnsafeNone ++ report_to_open ++ "g" ++ dquote)%string;
        (UnsafeNone ++ report_to_open ++ "g" ++ dquote)%string]
  /\ ~ exists parse : bool -> string -> option Policy,
         RoundTrips parse
           [mkPolicy UnsafeNone "g" false;
            mkPolicy (UnsafeNone ++ report_to_open ++ "g" ++ dquote)%string
                     EmptyString false].
Proof.
  split; [discriminate|].
  split; [reflexivity|].
  intros [parse [H _]].
  vm_compute in H.
  injection H as H1 H2.
  rewrite H1 in H2. discriminate.
Qed.

(** C9 (as the code has it): when every input policy has one of the three
    declared modes, every element of the enforced and of the report-only
    sequence built by [NewInterceptor], and likewise by [Override], is a
    directive of the grammar, and the recogniser [isDirective] accepts it. *)
Theorem NewInterceptor_directives (policies : list Policy) :
  Forall (fun p => ValidMode (Policy_Mode p)) policies ->
  Forall Directive (enf (NewInterceptor policies))
  /\ Forall Directive (rep (NewInterceptor policies))
  /\ Forall Directive (enf (Interceptor_of_Overrider (Override policies)))
  /\ Forall Directive (rep (Interceptor_of_Overrider (Override policies)))
  /\ forallb isDirective
       (enf (NewInterceptor policies) ++ rep (NewInterceptor policies)) = true.
Proof.
  intros H.
  assert (Hall : forall f : Policy -> bool,
             Forall Directive (map Policy_String (filter f policies))).
  { intros f. apply Forall_forall. intros s Hs.
    apply in_map_iff in Hs. destruct Hs as [p [<- Hp]].
    apply filter_In in Hp. destruct Hp as [Hp _].
    apply Policy_String_Directive.
    rewrite Forall_forall in H. now apply H. }
  change (Interceptor_of_Overrider (Override policies))
    with (NewInterceptor policies).
  rewrite enf_NewInterceptor, rep_NewInterceptor.
  repeat split; try apply Hall.
  apply forallb_forall. intros s Hs. apply isDirective_spec.
  apply in_app_or in Hs.
  pose proof (Hall enforcing) as He. pose proof (Hall ReportOnly) as Hr.
  rewrite Forall_forall in He, Hr. destruct Hs; auto.
Qed.

Lemma NewInterceptor_directives_witness :
  Forall (fun p => ValidMode (Policy_Mode p))
         [mkPolicy SameOriginAllowPopups "grp1" true;
          mkPolicy SameOrigin EmptyString false]
  /\ Forall Directive
       (enf (NewInterceptor [mkPolicy SameOriginAllowPopups "grp1" true;
                             mkPolicy SameOrigin EmptyString false]))
  /\ Forall Directive
       (rep (NewInterceptor [mkPolicy SameOriginAllowPopups "grp1" true;
                             mkPolicy SameOrigin EmptyString false])).
Proof.
  assert (H : Forall (fun p => ValidMode (Policy_Mode p))
                [mkPolicy SameOriginAllowPopups "grp1" true;
                 mkPolicy SameOrigin EmptyString false]).
  { repeat constructor; simpl; tauto. }
  split; [exact H|].
  pose proof (NewInterceptor_directives _ H) as [He [Hr _]].
  split; [exact He|exact Hr].
Defined.

(** C9, the claim as stated fails: [Mode] is any string, and the zero
    value of [Policy] has the empty mode.  Its serialisation is the empty
    string, which is no directive. *)
Lemma zero_Policy_not_Directive :
  enf (NewInterceptor [mkPolicy EmptyString EmptyString false])
  = [EmptyString]
  /\ isDirective EmptyString = false
  /\ ~ Forall Directive
       (enf (NewInterceptor [mkPolicy EmptyString EmptyString false])).
Proof.
  split; [reflexivity|].
  split; [reflexivity|].
  intros H. inversion H as [|s l Hd _]; subst.
  apply isDirective_spec in Hd. discriminate.
Qed.


(** * Further properties of the package *)

(** ** Construction composes and ignores order across the two classes *)

Lemma NewInterceptor_fields (policies : list Policy) :
  NewInterceptor policies
  = {| rep := map Policy_String (filter ReportOnly policies);
       enf := map Policy_String (filter enforcing policies) |}.
Proof. unfold NewInterceptor. now rewrite NewInterceptor_loop_spec. Qed.

(** X1: building from a concatenated policy list concatenates the two
    sequences field by field, so policies can be assembled in groups; the
    same holds for [Override]. *)
Theorem NewInterceptor_app (ps qs : list Policy) :
  NewInterceptor (ps ++ qs)
  = {| rep := rep (NewInterceptor ps) ++ rep (NewInterceptor qs);
       enf := enf (NewInterceptor ps) ++ enf (NewInterceptor qs) |}
  /\ Override (ps ++ qs)
     = Overrider_of_Interceptor
         {| rep := rep (Interceptor_of_Overrider (Override ps))
                   ++ rep (Interceptor_of_Overrider (Override qs));
            enf := enf (Interceptor_of_Overrider (Override ps))
                   ++ enf (Interceptor_of_Overrider (Override qs)) |}.
Proof.
  assert (E : NewInterceptor (ps ++ qs)
              = {| rep := rep (NewInterceptor ps) ++ rep (NewInterceptor qs);
                   enf := enf (NewInterceptor ps) ++ enf (NewInterceptor qs) |}).
  { rewrite !enf_NewInterceptor, !rep_NewInterceptor, NewInterceptor_fields.
    now rewrite !filter_app, !map_app. }
  split; [exact E|].
  unfold Override. cbn [Interceptor_of_Overrider Overrider_of_Interceptor].
  now rewrite E.
Qed.

Lemma filter_enforcing_ReportOnly (policies : list Policy) :
  filter enforcing (filter ReportOnly policies) = []
  /\ filter ReportOnly (filter enforcing policies) = [].
Proof.
  induction policies as [|p ps [IH1 IH2]]; simpl; [now split|].
  change (enforcing p) with (negb (ReportOnly p)).
  destruct (ReportOnly p) eqn:E; simpl;
    change (enforcing p) with (negb (ReportOnly p)); rewrite E; simpl;
    now split.
Qed.

Lemma filter_idempotent {A : Type} (f : A -> bool) (l : list A) :
  filter f (filter f l) = filter f l.
Proof.
  induction l as [|x l IH]; simpl; [reflexivity|].
  destruct (f x) eqn:E; simpl; [rewrite E, IH|]; auto.
Qed.

(** X2: only the order within each class matters.  Moving every enforcing
    policy in front of every report-only policy, keeping the order inside
    each group, builds the same interceptor. *)
Theorem NewInterceptor_classes (policies : list Policy) :
  NewInterceptor policies
  = NewInterceptor (filter enforcing policies ++ filter ReportOnly policies).
Proof.
  rewrite (NewInterceptor_fields (_ ++ _)), !filter_app, !filter_idempotent.
  destruct (filter_enforcing_ReportOnly policies) as [-> ->].
  rewrite app_nil_r. simpl. apply NewInterceptor_fields.
Qed.

(** X3: a sequence is empty exactly when no input policy belongs to it.
    The report-only sequence is empty iff every policy is enforcing, the
    enforced sequence is empty iff every policy is report-only, and both are
    empty iff the policy list is empty. *)
Theorem NewInterceptor_empty_sequences (policies : list Policy) :
  (rep (NewInterceptor policies) = [] <-> forallb enforcing policies = true)
  /\ (enf (NewInterceptor policies) = []
      <-> forallb ReportOnly policies = true)
  /\ (NewInterceptor policies = {| rep := []; enf := [] |}
      <-> policies = []).
Proof.
  rewrite NewInterceptor_fields. cbn [rep enf].
  split; [|split].
  - induction policies as [|p ps IH]; simpl; [tauto|].
    change (enforcing p) with (negb (ReportOnly p)).
    destruct (ReportOnly p); simpl; [|exact IH].
    split; discriminate.
  - induction policies as [|p ps IH]; simpl; [tauto|].
    change (enforcing p) with (negb (ReportOnly p)).
    destruct (ReportOnly p); simpl; [exact IH|].
    split; discriminate.
  - split.
    + intros H. destruct policies as [|p ps]; [reflexivity|].
      exfalso. simpl in H.
      change (enforcing p) with (negb (ReportOnly p)) in H.
      destruct (ReportOnly p); simpl in H; discriminate.
    + now intros ->.
Qed.

(** ** Serialisation: what tells two policies apart *)

Lemma append_cancel_l (a b c : string) :
  (a ++ b)%string = (a ++ c)%string -> b = c.
Proof.
  induction a as [|x a IH]; simpl; [auto|].
  intros [= H]. now apply IH.
Qed.

Lemma append_dquote_cancel (g1 g2 : string) :
  (g1 ++ dquote)%string = (g2 ++ dquote)%string -> g1 = g2.
Proof.
  intros H. apply (f_equal strip_last) in H. unfold dquote in H.
  rewrite !strip_last_snoc in H. now injection H.
Qed.

Lemma Policy_String_longer (p : Policy) :
  ReportingGroup p <> EmptyString ->
  String.length (Policy_Mode p) < String.length (Policy_String p).
Proof.
  intros N. rewrite (Policy_String_group p N), !length_append. simpl. lia.
Qed.

Lemma prefix_append (a b : string) : String.prefix a (a ++ b) = true.
Proof. apply prefix_correct, substring_whole_prefix. Qed.

(** X4: the serialisation is the bare mode exactly when the policy has no
    reporting group; in every case it starts with the mode and is at least
    as long. *)
Theorem Policy_String_bare_iff (p : Policy) :
  (Policy_String p = Policy_Mode p <-> ReportingGroup p = EmptyString)
  /\ String.prefix (Policy_Mode p) (Policy_String p) = true
  /\ String.length (Policy_Mode p) <= String.length (Policy_String p).
Proof.
  destruct (string_dec (ReportingGroup p) EmptyString) as [E|N].
  - assert (H : Policy_String p = Policy_Mode p).
    { unfold Policy_String. now rewrite E. }
    rewrite H. repeat split; auto.
    pose proof (prefix_append (Policy_Mode p) EmptyString) as P.
    now rewrite append_empty_r in P.
  - pose proof (Policy_String_longer p N) as L.
    split; [|split].
    + split; [|contradiction].
      intros H. rewrite H in L. lia.
    + rewrite (Policy_String_group p N). apply prefix_append.
    + lia.
Qed.

(** X5: for one and the same mode, whatever string it is, two policies
    serialise to the same string exactly when their reporting groups are
    equal: the group is never truncated or merged, and the report-only flag
    never shows in the string. *)
Theorem Policy_String_group_injective (m : Mode) (g1 g2 : string)
        (r1 r2 : bool) :
  Policy_String {| Policy_Mode := m; ReportingGroup := g1; ReportOnly := r1 |}
  = Policy_String {| Policy_Mode := m; ReportingGroup := g2; ReportOnly := r2 |}
  <-> g1 = g2.
Proof.
  split; [|now intros ->].
  intros H.
  destruct (string_dec g1 EmptyString) as [E1|N1];
    destruct (string_dec g2 EmptyString) as [E2|N2].
  - now rewrite E1, E2.
  - exfalso. subst g1. rewrite Policy_String_no_group in H.
    pose proof (Policy_String_longer (mkPolicy m g2 r2) N2) as L.
    rewrite <- H in L. simpl in L. lia.
  - exfalso. subst g2. rewrite Policy_String_no_group in H.
    pose proof (Policy_String_longer (mkPolicy m g1 r1) N1) as L.
    rewrite H in L. simpl in L. lia.
  - rewrite (Policy_String_group (mkPolicy m g1 r1) N1) in H.
    rewrite (Policy_String_group (mkPolicy m g2 r2) N2) in H.
    cbn [Policy_Mode ReportingGroup] in H.
    apply append_cancel_l, append_cancel_l in H.
    now apply append_dquote_cancel.
Qed.

(** X6: on the three declared modes the serialisation tells policies apart
    up to the report-only flag: two policies with declared modes serialise
    to the same string exactly when they have the same mode and the same
    reporting group. *)
Theorem Policy_String_injective (p q : Policy) :
  ValidMode (Policy_Mode p) ->
  ValidMode (Policy_Mode q) ->
  (Policy_String p = Policy_String q
   <-> Policy_Mode p = Policy_Mode q /\ ReportingGroup p = ReportingGroup q).
Proof.
  intros Hp Hq. split.
  - intros E.
    pose proof (parsePolicy_String p Hp) as Pp.
    pose proof (parsePolicy_String q Hq) as Pq.
    rewrite E in Pp. unfold parsePolicy in Pp, Pq.
    destruct (parse_directive (Policy_String q)) as [[m g]|]; [|discriminate].
    injection Pp as <-. injection Pq as <-. now split.
  - destruct p as [m g r], q as [m' g' r']. simpl.
    intros [-> ->]. now apply Policy_String_group_injective.
Qed.

Lemma Policy_String_injective_witness :
  ValidMode SameOrigin
  /\ ValidMode SameOriginAllowPopups
  /\ (Policy_String (mkPolicy SameOrigin "-allow-popups" false)
      = Policy_String (mkPolicy SameOriginAllowPopups EmptyString true)
      <-> SameOrigin = SameOriginAllowPopups
          /\ "-allow-popups"%string = EmptyString).
Proof.
  assert (H1 : ValidMode SameOrigin) by (unfold ValidMode, Modes; simpl; tauto).
  assert (H2 : ValidMode SameOriginAllowPopups) by (unfold ValidMode, Modes; simpl; tauto).
  split; [exact H1|]. split; [exact H2|].
  exact (Policy_String_injective
           (mkPolicy SameOrigin "-allow-popups" false)
           (mkPolicy SameOriginAllowPopups EmptyString true) H1 H2).
Defined.

(** X7: whatever the reporting group, [Default] yields one enforced
    element and no report-only element; the element conforms to the
    directive grammar and parses back to the same-origin policy with that
    group. *)
Theorem Default_directive (g : string) :
  rep (Default g) = []
  /\ length (enf (Default g)) = 1
  /\ Forall Directive (enf (Default g))
  /\ map (parsePolicy false) (enf (Default g))
     = [Some {| Policy_Mode := SameOrigin; ReportingGroup := g;
                ReportOnly := false |}].
Proof.
  assert (V : ValidMode SameOrigin) by (unfold ValidMode, Modes; simpl; tauto).
  unfold Default. rewrite enf_NewInterceptor, rep_NewInterceptor.
  cbn [filter enforcing ReportOnly negb map length].
  repeat split.
  - constructor; [|constructor]. now apply Policy_String_Directive.
  - f_equal. exact (parsePolicy_String (mkPolicy SameOrigin g false) V).
Qed.

(** ** Dispatch of [Before] *)

Section BeforeDispatch.

Context {Header Body IncomingRequest : Type}.
Variable Claim : string -> Header -> Header * (list string -> Header -> Header).

(** X8: [Before] panics exactly when the configuration object is neither
    nil nor an [Overrider]; it then leaves the response writer untouched,
    and in every other case it returns the not-written result. *)
Theorem Before_panics_iff (it : Interceptor) (w : @ResponseWriter Header Body)
        (r : IncomingRequest) (cfg : InterceptorConfig) :
  (fst (Before Claim it w r cfg) = Panicked
   <-> cfg <> NilConfig /\ forall o : Overrider, cfg <> OverriderConfig o)
  /\ (fst (Before Claim it w r cfg) = Panicked
      -> snd (Before Claim it w r cfg) = w)
  /\ (fst (Before Claim it w r cfg) = Panicked
      \/ fst (Before Claim it w r cfg) = Returned NotWritten).
Proof.
  destruct cfg as [|o|t].
  - rewrite Before_nil. simpl. repeat split; try discriminate; auto.
    intros [H _]. now elim H.
  - rewrite Before_override, Before_nil. simpl.
    repeat split; try discriminate; auto.
    intros [_ H]. now elim (H o).
  - rewrite Before_other. simpl. repeat split; auto; discriminate.
Qed.

(** X9: attaching to a handler the override built from a policy list makes
    [Before] behave, on any interceptor, exactly as the interceptor built
    from that list behaves with no configuration object; in particular the
    override built from no policy claims both headers with empty
    sequences. *)
Theorem Before_Override_as_built (it : Interceptor)
        (w : @ResponseWriter Header Body) (r : IncomingRequest)
        (policies : list Policy) :
  Before Claim it w r (OverriderConfig (Override policies))
  = Before Claim (NewInterceptor policies) w r NilConfig
  /\ Before Claim it w r (OverriderConfig (Override []))
     = (Returned NotWritten,
        claim_and_set Claim COOP_report_only_header []
          (claim_and_set Claim COOP_header [] w))
  /\ Match (Override policies) (CoopInterceptor it) = true.
Proof.
  split; [|split].
  - now rewrite Before_override.
  - now rewrite Before_override, Before_nil.
  - reflexivity.
Qed.

End BeforeDispatch.
